(** * Block-matching stereo (handcrafted_stereo.py): padding, scanline
      matcher and SAD disparity engine, embedded as executable functions.

    Modelling conventions.
    - A numpy array is a [grid] of cells with an explicit shape
      (rows, columns) next to the nested row lists, so that shapes such as
      0 x W stay distinguishable; [wf] says the lists agree with the shape.
    - [len(I.shape)] is the [rank] index of [ndarray]: a 2-D array holds one
      integer per cell, an H x W x C array holds a channel vector per cell.
    - Pixel intensities are integers.  The source computes in float32; on
      integer intensities whose window sums stay below 2^24 that arithmetic
      is exact, so casts are the identity on values and only the [dtype]
      tag records the element type.  Likewise a disparity stored into the
      map is taken to fit the map's element type.
    - A raised Python exception is the [Raise] outcome of [result]. *)

From Stdlib Require Import ZArith Lia List Bool.
From Stdlib Require Import Ascii DecimalString DecimalN.
From stdpp Require Import base numbers option list strings.

Set Default Proof Using "Type".

(** ** Outcomes of fallible code *)

Inductive exn := ValueError | IndexError.

Inductive result (A : Type) :=
  | Ok (a : A)
  | Raise (e : exn).
Arguments Ok {A} a.
Arguments Raise {A} e.

Definition bind {A B} (m : result A) (k : A → result B) : result B :=
  match m with
  | Ok a => k a
  | Raise e => Raise e
  end.

Notation "x <- m ;; k" := (bind m (λ x, k))
  (at level 100, m at next level, right associativity).

(** [for x in it: s = body(x, s)], stopping at the first exception. *)
Fixpoint for_each {S I} (it : list I) (body : I → S → result S) (s : S)
  : result S :=
  match it with
  | [] => Ok s
  | i :: it' => s' <- body i s ;; for_each it' body s'
  end.

(** Python's [range(n)]: empty when [n <= 0]. *)
Definition range (n : Z) : list Z := Z.of_nat <$> seq 0 (Z.to_nat n).

(** ** Grids: shape and cells *)

Record grid (A : Type) := Grid {
  nrows : nat;
  ncols : nat;
  cells : list (list A)
}.
Arguments Grid {A} nrows ncols cells.
Arguments nrows {A} g.
Arguments ncols {A} g.
Arguments cells {A} g.

Definition wf {A} (g : grid A) : Prop :=
  length (cells g) = nrows g ∧ Forall (λ row, length row = ncols g) (cells g).

(** Bound of a slice [lo:hi] on an axis of length [n], as CPython adjusts
    it: a negative bound counts from the end, then both are clipped. *)
Definition slice_bound (n : nat) (i : Z) : nat :=
  Z.to_nat (if (i <? 0)%Z then Z.max 0 (i + Z.of_nat n) else Z.min i (Z.of_nat n)).

(** Broadcasting: an axis of extent [s] fits an axis of extent [t] when the
    extents agree or [s] is 1; a broadcast axis always reads index 0. *)
Definition fits (s t : nat) : bool := (s =? t) || (s =? 1).
Definition bidx (s i : nat) : nat := if s =? 1 then 0 else i.
Definition bshape (m n : nat) : option nat :=
  if m =? n then Some m
  else if m =? 1 then Some n
  else if n =? 1 then Some m
  else None.

Section Grid.
Context {A : Type} (fill : A).

(** Cell read; [fill] stands for a cell outside the shape. *)
Definition cell_at (g : grid A) (i j : nat) : A :=
  default fill (cells g !! i ≫= (.!! j)).

Definition full (h w : nat) : grid A :=
  Grid h w (replicate h (replicate w fill)).

(** [g[r0:r1, c0:c1]] *)
Definition getslice (g : grid A) (r0 r1 c0 c1 : Z) : grid A :=
  let a := slice_bound (nrows g) r0 in
  let b := slice_bound (nrows g) r1 in
  let c := slice_bound (ncols g) c0 in
  let d := slice_bound (ncols g) c1 in
  Grid (b - a) (d - c)
       ((λ row, take (d - c) (drop c row)) <$> take (b - a) (drop a (cells g))).

(** [g[r0:r1, c0:c1] = src], with numpy's broadcasting of [src] onto the
    selected block; a shape that does not broadcast raises ValueError. *)
Definition setslice (g : grid A) (r0 r1 c0 c1 : Z) (src : grid A)
  : result (grid A) :=
  let a := slice_bound (nrows g) r0 in
  let b := slice_bound (nrows g) r1 in
  let c := slice_bound (ncols g) c0 in
  let d := slice_bound (ncols g) c1 in
  if fits (nrows src) (b - a) && fits (ncols src) (d - c) then
    Ok (Grid (nrows g) (ncols g)
          (imap (λ i row,
             if (a <=? i) && (i <? b) then
               imap (λ j v,
                 if (c <=? j) && (j <? d) then
                   cell_at src (bidx (nrows src) (i - a)) (bidx (ncols src) (j - c))
                 else v) row
             else row) (cells g)))
  else Raise ValueError.

(** [g[y, x] = v] for integer indices: a negative index counts from the
    end, an index outside the axis raises IndexError. *)
Definition setitem (g : grid A) (y x : Z) (v : A) : result (grid A) :=
  let y' := (if y <? 0 then y + Z.of_nat (nrows g) else y)%Z in
  let x' := (if x <? 0 then x + Z.of_nat (ncols g) else x)%Z in
  if ((0 <=? y') && (y' <? Z.of_nat (nrows g)) &&
      (0 <=? x') && (x' <? Z.of_nat (ncols g)))%Z then
    Ok (Grid (nrows g) (ncols g)
          (alter (λ row, <[Z.to_nat x' := v]> row) (Z.to_nat y') (cells g)))
  else Raise IndexError.
End Grid.

(** ** numpy arrays of rank 2 and 3 *)

Inductive dtype := uint8 | int32 | int64 | float32 | float64.

(** [len(I.shape)]: 2, or 3 with [C] channels. *)
Inductive rank := R2 | R3 (C : nat).

Definition pixel (r : rank) : Type :=
  match r with R2 => Z | R3 _ => list Z end.

Definition pzero (r : rank) : pixel r :=
  match r with R2 => 0%Z | R3 C => replicate C 0%Z end.

Record ndarray (r : rank) := NDArray {
  elt : dtype;
  data : grid (pixel r)
}.
Arguments NDArray {r} elt data.
Arguments elt {r} n.
Arguments data {r} n.

(** [np.zeros(shape, dtype=dt)]: a negative extent raises ValueError. *)
Definition np_zeros (r : rank) (dt : dtype) (h w : Z) : result (ndarray r) :=
  if ((h <? 0) || (w <? 0))%Z then Raise ValueError
  else Ok (NDArray dt (full (pzero r) (Z.to_nat h) (Z.to_nat w))).

(** [np.zeros_like(a)] *)
Definition zeros_like {r} (a : ndarray r) : ndarray r :=
  NDArray (elt a) (full (pzero r) (nrows (data a)) (ncols (data a))).

(** [a.astype(dt)] *)
Definition astype {r} (dt : dtype) (a : ndarray r) : ndarray r :=
  NDArray dt (data a).

(** ** add_padding *)

Definition add_padding {r} (I : ndarray r) (padding : Z) : result (ndarray r) :=
  match r return ndarray r → result (ndarray r) with
  | R2 => λ I,
      let H := Z.of_nat (nrows (data I)) in
      let W := Z.of_nat (ncols (data I)) in
      padded <- np_zeros R2 float32 (H + 2 * padding) (W + 2 * padding) ;;
      cs <- setslice (pzero R2) (data padded)
              padding (- padding) padding (- padding) (data I) ;;
      Ok (NDArray (elt padded) cs)
  | R3 C => λ I,
      let H := Z.of_nat (nrows (data I)) in
      let W := Z.of_nat (ncols (data I)) in
      padded <- np_zeros (R3 C) (elt I) (H + 2 * padding) (W + 2 * padding) ;;
      cs <- setslice (pzero (R3 C)) (data padded)
              padding (- padding) padding (- padding) (data I) ;;
      Ok (NDArray (elt padded) cs)
  end I.

(** ** match_on_scanline *)

(** [left_patch - region], element-wise with broadcasting. *)
Definition np_sub (a b : grid Z) : result (grid Z) :=
  match bshape (nrows a) (nrows b), bshape (ncols a) (ncols b) with
  | Some h, Some w =>
      Ok (Grid h w
            ((λ i, (λ j,
                (cell_at 0 a (bidx (nrows a) i) (bidx (ncols a) j)
                 - cell_at 0 b (bidx (nrows b) i) (bidx (ncols b) j))%Z)
                <$> seq 0 w) <$> seq 0 h))
  | _, _ => Raise ValueError
  end.

Definition np_abs (a : grid Z) : grid Z :=
  Grid (nrows a) (ncols a) ((λ row : list Z, Z.abs <$> row) <$> cells a).

Definition sum_list (l : list Z) : Z := foldr Z.add 0%Z l.

Definition np_sum (a : grid Z) : Z := sum_list (sum_list <$> cells a).

(** SAD of the left window against the right window anchored at
    [(disp_x, y)], as the loop body computes it. *)
Definition sad_at (left_patch image_right : grid Z) (disp_x y window_size : Z)
  : result Z :=
  let disp_right_image_region :=
    getslice image_right y (y + window_size) disp_x (disp_x + window_size) in
  diff <- np_sub left_patch disp_right_image_region ;;
  Ok (np_sum (np_abs diff)).

(** The [for d in range(max_disparity)] loop, with its running minimum. *)
Fixpoint scan (left_patch image_right : grid Z) (x y window_size : Z)
    (ds : list Z) (minimal_sad minimal_sad_d : Z) : result Z :=
  match ds with
  | [] => Ok minimal_sad_d
  | d :: ds' =>
      let disp_x := (x - d)%Z in
      if (disp_x <? 0)%Z then Ok minimal_sad_d
      else
        sad <- sad_at left_patch image_right disp_x y window_size ;;
        if (sad <? minimal_sad)%Z
        then scan left_patch image_right x y window_size ds' sad d
        else scan left_patch image_right x y window_size ds' minimal_sad minimal_sad_d
  end.

Definition match_on_scanline (left_patch image_right : grid Z)
    (x y max_disparity window_size : Z) : result Z :=
  scan left_patch image_right x y window_size
       (range max_disparity) (max_disparity + 1)%Z 0%Z.

(** ** sad *)

Definition sad_pixel (image_left image_right : grid Z)
    (window_size max_disparity y x : Z) (D : grid Z) : result (grid Z) :=
  let left_image_region :=
    getslice image_left y (y + window_size) x (x + window_size) in
  disparity <- match_on_scanline left_image_region image_right
                 x y max_disparity window_size ;;
  setitem D y x disparity.

Definition sad (image_left image_right : ndarray R2)
    (window_size max_disparity : Z) : result (ndarray R2) :=
  let D := zeros_like image_left in
  let padding := (window_size / 2)%Z in
  padded_left <- add_padding image_left padding ;;
  let image_left := astype float32 padded_left in
  padded_right <- add_padding image_right padding ;;
  let image_right := astype float32 padded_right in
  let height := Z.of_nat (nrows (data image_left)) in
  let width := Z.of_nat (ncols (data image_left)) in
  cs <- for_each (range (height - window_size + 1))
          (λ y D,
             for_each (range (width - window_size + 1))
               (sad_pixel (data image_left) (data image_right)
                          window_size max_disparity y) D)
          (data D) ;;
  Ok (@NDArray R2 (elt D) cs).

(** ** The output names [main] builds *)

(** The [0] flag of a [%d] conversion: zeros on the left up to [w]
    characters, nothing cut when the digits are longer. *)
Definition zero_pad (w : nat) (digits : string) : string :=
  String.string_of_list_ascii (replicate (w - String.length digits) "0"%char)
  +:+ digits.

(** The decimal digits of [|z|]. *)
Definition digits_of (z : Z) : string :=
  NilZero.string_of_uint (N.to_uint (Z.abs_N z)).

(** ['%d' % z] *)
Definition fmt_d (z : Z) : string :=
  if (z <? 0)%Z then "-" +:+ digits_of z else digits_of z.

(** ['%0wd' % z]: the sign counts in the width and comes before the zeros. *)
Definition fmt_0d (w : nat) (z : Z) : string :=
  if (z <? 0)%Z then "-" +:+ zero_pad (w - 1) (digits_of z)
  else zero_pad w (digits_of z).

(** [file_name = '%04d_w%03d.png' % (i, window_size)] *)
Definition file_name (i window_size : Z) : string :=
  fmt_0d 4 i +:+ "_w" +:+ fmt_0d 3 window_size +:+ ".png".

(** ['window_size_%d' % window_size], the last component of [out_dir]. *)
Definition out_dir_name (window_size : Z) : string :=
  "window_size_" +:+ fmt_d window_size.

(** ** Vocabulary of the statements *)

(** Position [(i, j)] of a padded H x W image lies in the centre block
    [[p, H+p) x [p, W+p)]. *)
Definition in_center (H W p i j : nat) : bool :=
  (p <=? i) && (i <? H + p) && ((p <=? j) && (j <? W + p)).

(** The candidates the scanline loop evaluates: the disparities of [ds] up
    to, and excluding, the first one whose window would start left of
    column 0, where the loop breaks. *)
Fixpoint visited (x : Z) (ds : list Z) : list Z :=
  match ds with
  | [] => []
  | d :: ds' => if (x - d <? 0)%Z then [] else d :: visited x ds'
  end.

(** The SAD score of candidate [d] at pixel [(x, y)]. *)
Definition cost (left_patch image_right : grid Z) (x y window_size d : Z)
  : result Z :=
  sad_at left_patch image_right (x - d) y window_size.



(** Every cell of an H x W x C array carries [C] channel values. *)
Definition channels_ok {r} (a : ndarray r) : Prop :=
  match r return ndarray r → Prop with
  | R2 => λ _, True
  | R3 C => λ a, Forall (Forall (λ px : list Z, length px = C)) (cells (data a))
  end a.

(** Reading a name component back: the number a string of decimal digits
    stands for, leading zeros allowed, and the same after a minus sign. *)
Definition read_digits (s : string) : option N :=
  N.of_uint <$> NilEmpty.uint_of_string s.

Definition read_int (s : string) : option Z :=
  match read_digits s with
  | Some n => Some (Z.of_N n)
  | None =>
      match s with
      | String a s' =>
          if Ascii.eqb a "-" then (λ n, (- Z.of_N n)%Z) <$> read_digits s'
          else None
      | EmptyString => None
      end
  end.

(** A string without the separators ["_"] and ["."]. *)
Fixpoint plain (s : string) : Prop :=
  match s with
  | EmptyString => True
  | String a s' => a ≠ "_"%char ∧ a ≠ "."%char ∧ plain s'
  end.

(** ** Concrete arrays used in examples *)

Definition gray (dt : dtype) (rows : list (list Z)) : ndarray R2 :=
  @NDArray R2 dt (Grid (length rows) (length (default [] (head rows))) rows).

(** A textured 3 x 12 image, and the same image moved two columns to the
    left (zeros entering on the right). *)
Definition texture : ndarray R2 :=
  gray uint8 [[1;0;2;1;0;3;1;2;0;1;3;0];
              [0;2;1;0;3;1;0;1;2;0;1;1];
              [2;1;0;1;1;0;2;0;1;3;0;2]]%Z.

Definition texture_left2 : ndarray R2 :=
  gray uint8 [[2;1;0;3;1;2;0;1;3;0;0;0];
              [1;0;3;1;0;1;2;0;1;1;0;0];
              [0;1;1;0;2;0;1;3;0;2;0;0]]%Z.



Definition small_left : ndarray R2 := gray uint8 [[0;20;7];[3;9;1]]%Z.
Definition small_right : ndarray R2 := gray uint8 [[15;0;2];[3;8;1]]%Z.

Example add_padding_ex :
  add_padding (gray uint8 [[1;2];[3;4]]%Z) 1
  = Ok (gray float32 [[0;0;0;0];[0;1;2;0];[0;3;4;0];[0;0;0;0]]%Z).
Proof. reflexivity. Qed.

Example file_name_ex :
  file_name 7 3 = "0007_w003.png" ∧ file_name 12345 (- 5) = "12345_w-05.png"
  ∧ out_dir_name 11 = "window_size_11".
Proof. repeat split; reflexivity. Qed.

Example sad_ex :
  sad (gray uint8 [[0;20]]%Z) (gray uint8 [[15;0]]%Z) 3 2
  = Ok (gray uint8 [[0;0]]%Z).
Proof. reflexivity. Qed.

(** * Properties *)

(** ** The result monad and the loop combinator *)

Lemma bind_Ok {A B} (m : result A) (k : A → result B) (b : B) :
  (x <- m ;; k x) = Ok b → ∃ a, m = Ok a ∧ k a = Ok b.
Proof. destruct m as [a|e]; simpl; [eauto | discriminate]. Qed.


Ltac inv_bind H :=
  let a := fresh "a" in
  let Ha := fresh "Ha" in
  apply bind_Ok in H as (a & Ha & H).

(** A property kept by every successful iteration holds after the loop. *)
Lemma for_each_inv {S I} (P : S → Prop) (body : I → S → result S) it :
  (∀ i s s', i ∈ it → P s → body i s = Ok s' → P s') →
  ∀ s s', P s → for_each it body s = Ok s' → P s'.
Proof.
  induction it as [|i it IH]; intros Hstep s s' Hs Hrun; simpl in Hrun.
  - by injection Hrun as <-.
  - inv_bind Hrun. apply (IH (λ j t t' Hj, Hstep j t t' (list_elem_of_further _ _ _ Hj)) a).
    + eapply Hstep; [apply list_elem_of_here | exact Hs | exact Ha].
    + exact Hrun.
Qed.


(** If the iterations before some element succeed and that element raises,
    the loop raises. *)
Lemma for_each_raises {S I} (P : S → Prop) (body : I → S → result S)
    l1 i l2 e :
  (∀ j s, j ∈ l1 → P s → ∃ s', body j s = Ok s' ∧ P s') →
  (∀ s, P s → body i s = Raise e) →
  ∀ s, P s → for_each (l1 ++ i :: l2) body s = Raise e.
Proof.
  induction l1 as [|j l1 IH]; intros Hpre Hi s Hs; simpl.
  - by rewrite (Hi s Hs).
  - destruct (Hpre j s (list_elem_of_here _ _) Hs) as (s1 & -> & Hs1). simpl.
    apply IH; [|exact Hi|exact Hs1].
    intros j' t Hj'. apply Hpre. by apply list_elem_of_further.
Qed.

Lemma bind_Raise {A B} (m : result A) (k : A → result B) e :
  m = Raise e → (x <- m ;; k x) = Raise e.
Proof. by intros ->. Qed.

Lemma elem_of_range (n i : Z) : i ∈ range n ↔ (0 ≤ i < n)%Z.
Proof.
  unfold range. rewrite list_elem_of_fmap. split.
  - intros (k & -> & Hk). apply elem_of_seq in Hk. lia.
  - intros Hi. exists (Z.to_nat i). split; [lia|]. apply elem_of_seq. lia.
Qed.

Lemma range_of_nat (n : nat) : range (Z.of_nat n) = Z.of_nat <$> seq 0 n.
Proof. unfold range. by rewrite Nat2Z.id. Qed.

Lemma range_succ (n : Z) : (0 ≤ n)%Z → range (n + 1) = range n ++ [n].
Proof.
  intros Hn. unfold range.
  replace (Z.to_nat (n + 1)) with (S (Z.to_nat n)) by lia.
  rewrite seq_S, fmap_app. simpl. do 2 f_equal. lia.
Qed.

(** ** Slice bounds and broadcasting *)

Lemma slice_bound_le n i : slice_bound n i ≤ n.
Proof. unfold slice_bound. destruct (Z.ltb_spec i 0); lia. Qed.

Lemma slice_bound_nonneg n i :
  (0 ≤ i)%Z → slice_bound n i = Nat.min (Z.to_nat i) n.
Proof. intros Hi. unfold slice_bound. destruct (Z.ltb_spec i 0); lia. Qed.

Lemma slice_bound_neg n i :
  (i < 0)%Z → slice_bound n i = Z.to_nat (i + Z.of_nat n).
Proof. intros Hi. unfold slice_bound. destruct (Z.ltb_spec i 0); lia. Qed.

Lemma bidx_lt s i : i < s → bidx s i = i.
Proof. unfold bidx. destruct (Nat.eqb_spec s 1); lia. Qed.

Lemma fits_refl s : fits s s = true.
Proof. unfold fits. by rewrite Nat.eqb_refl. Qed.

Lemma bshape_refl s : bshape s s = Some s.
Proof. unfold bshape. by rewrite Nat.eqb_refl. Qed.

(** ** Cells of grids *)

Section GridFacts.
Context {A : Type} (fill : A).
Implicit Types g src : grid A.

Lemma cell_at_lookup g i j row v :
  cells g !! i = Some row → row !! j = Some v → cell_at fill g i j = v.
Proof. unfold cell_at. intros -> Hj. simpl. by rewrite Hj. Qed.

Lemma cell_at_row_None g i j :
  cells g !! i = None → cell_at fill g i j = fill.
Proof. unfold cell_at. by intros ->. Qed.

Lemma cell_at_col_None g i j row :
  cells g !! i = Some row → row !! j = None → cell_at fill g i j = fill.
Proof. unfold cell_at. intros -> Hj. simpl. by rewrite Hj. Qed.

Lemma wf_row g i row : wf g → cells g !! i = Some row → length row = ncols g.
Proof. intros [_ Hall] Hi. by apply (Forall_lookup_1 _ _ _ _ Hall Hi). Qed.



Lemma wf_full h w : wf (full fill h w).
Proof.
  split; simpl; [apply length_replicate|].
  apply Forall_replicate, length_replicate.
Qed.

Lemma cell_at_full h w i j : cell_at fill (full fill h w) i j = fill.
Proof.
  unfold cell_at, full. simpl.
  destruct (replicate h (replicate w fill) !! i) as [row|] eqn:Hrow; [|done].
  apply lookup_replicate_1 in Hrow as [-> _]. simpl.
  destruct (replicate w fill !! j) as [v|] eqn:Hv; [|done].
  by apply lookup_replicate_1 in Hv as [-> _].
Qed.
End GridFacts.

(** ** Slicing, slice assignment and item assignment *)

Section GridOps.
Context {A : Type} (fill : A).
Implicit Types g src : grid A.



Lemma setslice_shape g r0 r1 c0 c1 src g' :
  setslice fill g r0 r1 c0 c1 src = Ok g' →
  nrows g' = nrows g ∧ ncols g' = ncols g.
Proof.
  unfold setslice. destruct (_ && _); [|discriminate].
  by intros [= <-].
Qed.

Lemma setslice_wf g r0 r1 c0 c1 src g' :
  setslice fill g r0 r1 c0 c1 src = Ok g' → wf g → wf g'.
Proof.
  unfold setslice. destruct (_ && _); [|discriminate].
  intros [= <-] Hwf. split; simpl.
  - rewrite length_imap. apply Hwf.
  - apply Forall_lookup_2. intros i row Hrow.
    rewrite list_lookup_imap in Hrow.
    destruct (cells g !! i) as [row0|] eqn:Hrow0; [|discriminate].
    injection Hrow as <-. pose proof (wf_row g i row0 Hwf Hrow0).
    destruct (_ && _); [by rewrite length_imap | done].
Qed.

(** After a slice assignment a cell of the block holds the (broadcast)
    source cell, every other cell is unchanged. *)
Lemma cell_at_setslice g r0 r1 c0 c1 src g' i j :
  wf g → setslice fill g r0 r1 c0 c1 src = Ok g' →
  cell_at fill g' i j =
    if (slice_bound (nrows g) r0 <=? i) && (i <? slice_bound (nrows g) r1)
       && ((slice_bound (ncols g) c0 <=? j) && (j <? slice_bound (ncols g) c1))
    then cell_at fill src
           (bidx (nrows src) (i - slice_bound (nrows g) r0))
           (bidx (ncols src) (j - slice_bound (ncols g) c0))
    else cell_at fill g i j.
Proof.
  intros Hwf. unfold setslice. destruct (fits _ _ && fits _ _); [|discriminate].
  intros [= <-]. pose proof (proj1 Hwf) as Hlen.
  pose proof (slice_bound_le (nrows g) r1).
  pose proof (slice_bound_le (ncols g) c1).
  unfold cell_at at 1. simpl. rewrite list_lookup_imap.
  destruct (cells g !! i) as [row|] eqn:Hrow; simpl.
  - pose proof (wf_row g i row Hwf Hrow) as Hlrow.
    destruct ((_ <=? i) && (i <? _)) eqn:Hi; simpl.
    + rewrite list_lookup_imap.
      destruct (row !! j) as [v|] eqn:Hv; simpl.
      * destruct ((_ <=? j) && (j <? _)); [done|].
        symmetry. by eapply cell_at_lookup.
      * apply lookup_ge_None_1 in Hv.
        destruct ((_ <=? j) && (j <? _)) eqn:Hj; [|symmetry; by eapply cell_at_col_None; [|apply lookup_ge_None_2]].
        apply andb_true_iff in Hj as [_ Hj%Nat.ltb_lt]. lia.
    + unfold cell_at. by rewrite Hrow.
  - apply lookup_ge_None_1 in Hrow.
    destruct ((_ <=? i) && (i <? _)) eqn:Hi; simpl.
    + apply andb_true_iff in Hi as [_ Hi%Nat.ltb_lt]. lia.
    + symmetry. apply cell_at_row_None. by apply lookup_ge_None_2.
Qed.

Lemma setitem_shape g y x v g' :
  setitem g y x v = Ok g' → nrows g' = nrows g ∧ ncols g' = ncols g.
Proof.
  unfold setitem. destruct (_ && _)%Z; [|discriminate]. by intros [= <-].
Qed.


(** An item assignment at a non-negative position succeeds exactly inside
    the shape. *)
Lemma setitem_nonneg g (y x : nat) v :
  setitem g (Z.of_nat y) (Z.of_nat x) v =
    if (y <? nrows g) && (x <? ncols g)
    then Ok (Grid (nrows g) (ncols g) (alter (λ row, <[x := v]> row) y (cells g)))
    else Raise IndexError.
Proof.
  unfold setitem.
  destruct (Z.ltb_spec (Z.of_nat y) 0); [lia|].
  destruct (Z.ltb_spec (Z.of_nat x) 0); [lia|].
  rewrite !Nat2Z.id.
  destruct (Nat.ltb_spec y (nrows g)), (Nat.ltb_spec x (ncols g)); simpl;
    repeat match goal with
      | |- context [(?a <=? ?b)%Z] => destruct (Z.leb_spec a b); try lia
      | |- context [(?a <? ?b)%Z] => destruct (Z.ltb_spec a b); try lia
      end; simpl; reflexivity.
Qed.

(** Every cell after an item assignment is the stored value or the old
    cell. *)
Lemma cell_at_setitem_cases g y x v g' i j :
  setitem g y x v = Ok g' →
  cell_at fill g' i j = v ∨ cell_at fill g' i j = cell_at fill g i j.
Proof.
  unfold setitem. destruct (_ && _)%Z; [|discriminate]. intros [= <-].
  unfold cell_at. simpl. rewrite list_lookup_alter. case_decide; [|by right].
  subst i. destruct (cells g !! _) as [row|]; simpl; [|by right].
  rewrite list_lookup_insert. case_decide; [by left | by right].
Qed.


Lemma cell_at_setitem_ne g (y x : nat) v g' i j :
  setitem g (Z.of_nat y) (Z.of_nat x) v = Ok g' →
  i ≠ y ∨ j ≠ x → cell_at fill g' i j = cell_at fill g i j.
Proof.
  rewrite setitem_nonneg. destruct (_ && _); [|discriminate].
  intros [= <-] Hne. unfold cell_at. simpl.
  rewrite list_lookup_alter. case_decide; [|done].
  subst i. destruct (cells g !! y) as [row|]; simpl; [|done].
  rewrite list_lookup_insert_ne; [done|]. intros ->. by destruct Hne.
Qed.
End GridOps.

(** ** add_padding with a positive padding *)

Lemma pad_bounds (n : nat) (p : Z) :
  (0 < p)%Z →
  slice_bound (Z.to_nat (Z.of_nat n + 2 * p)) p = Z.to_nat p ∧
  slice_bound (Z.to_nat (Z.of_nat n + 2 * p)) (- p) = n + Z.to_nat p.
Proof.
  intros Hp. split.
  - rewrite slice_bound_nonneg by lia. lia.
  - rewrite slice_bound_neg by lia. lia.
Qed.

Lemma pad_block {A} (fill : A) (src : grid A) (p : Z) :
  (0 < p)%Z → wf src →
  ∃ g', setslice fill
          (full fill (Z.to_nat (Z.of_nat (nrows src) + 2 * p))
                     (Z.to_nat (Z.of_nat (ncols src) + 2 * p)))
          p (- p) p (- p) src = Ok g'
      ∧ nrows g' = nrows src + 2 * Z.to_nat p
      ∧ ncols g' = ncols src + 2 * Z.to_nat p
      ∧ wf g'
      ∧ ∀ i j, cell_at fill g' i j =
          if in_center (nrows src) (ncols src) (Z.to_nat p) i j
          then cell_at fill src (i - Z.to_nat p) (j - Z.to_nat p)
          else fill.
Proof.
  intros Hp Hwf.
  destruct (pad_bounds (nrows src) p Hp) as [Ha Hb].
  destruct (pad_bounds (ncols src) p Hp) as [Hc Hd].
  set (z := full fill _ _).
  destruct (setslice fill z p (- p) p (- p) src) as [g'|e] eqn:Hset.
  - exists g'. split; [done|].
    destruct (setslice_shape _ _ _ _ _ _ _ _ Hset) as [Hr Hcn].
    pose proof (setslice_wf _ _ _ _ _ _ _ _ Hset (wf_full fill _ _)) as Hwf'.
    split; [rewrite Hr; simpl; lia|]. split; [rewrite Hcn; simpl; lia|].
    split; [done|]. intros i j.
    rewrite (cell_at_setslice fill z p (- p) p (- p) src g' i j (wf_full fill _ _) Hset).
    subst z. simpl. rewrite Ha, Hb, Hc, Hd, cell_at_full. unfold in_center.
    destruct (Nat.leb_spec (Z.to_nat p) i), (Nat.ltb_spec i (nrows src + Z.to_nat p)),
      (Nat.leb_spec (Z.to_nat p) j), (Nat.ltb_spec j (ncols src + Z.to_nat p));
      simpl; try reflexivity.
    by rewrite !bidx_lt by lia.
  - exfalso. revert Hset. unfold setslice. subst z. simpl.
    rewrite Ha, Hb, Hc, Hd.
    replace (nrows src + Z.to_nat p - Z.to_nat p) with (nrows src) by lia.
    replace (ncols src + Z.to_nat p - Z.to_nat p) with (ncols src) by lia.
    by rewrite !fits_refl.
Qed.

Lemma np_zeros_nonneg r dt (h w : Z) :
  (0 ≤ h)%Z → (0 ≤ w)%Z →
  np_zeros r dt h w = Ok (NDArray dt (full (pzero r) (Z.to_nat h) (Z.to_nat w))).
Proof.
  intros Hh Hw. unfold np_zeros.
  destruct (Z.ltb_spec h 0); [lia|]. by destruct (Z.ltb_spec w 0); [lia|].
Qed.

(** With a positive padding, [add_padding] returns the enlarged array: the
    centre block is the source, the border is zero. *)
Lemma add_padding_pos {r} (I : ndarray r) (padding : Z) :
  (0 < padding)%Z → wf (data I) →
  ∃ P, add_padding I padding = Ok P
     ∧ elt P = match r with R2 => float32 | R3 _ => elt I end
     ∧ nrows (data P) = nrows (data I) + 2 * Z.to_nat padding
     ∧ ncols (data P) = ncols (data I) + 2 * Z.to_nat padding
     ∧ wf (data P)
     ∧ ∀ i j, cell_at (pzero r) (data P) i j =
         if in_center (nrows (data I)) (ncols (data I)) (Z.to_nat padding) i j
         then cell_at (pzero r) (data I) (i - Z.to_nat padding) (j - Z.to_nat padding)
         else pzero r.
Proof.
  intros Hp Hwf.
  destruct (pad_block (pzero r) (data I) padding Hp Hwf)
    as (g' & Hset & Hr & Hc & Hwf' & Hcell).
  destruct r as [|C]; unfold add_padding;
    rewrite np_zeros_nonneg by lia; cbn [bind data elt];
    rewrite Hset; cbn [bind data elt];
    (eexists; split; [reflexivity|]); cbn [data elt]; auto.
Qed.

(** ** Sums of absolute differences *)

Lemma sum_list_nonneg l : Forall (λ v, 0 ≤ v)%Z l → (0 ≤ sum_list l)%Z.
Proof. induction 1; simpl; lia. Qed.

Lemma sum_list_zero l : Forall (λ v, v = 0%Z) l → sum_list l = 0%Z.
Proof. induction 1; simpl; lia. Qed.

Lemma np_sum_abs_nonneg a : (0 ≤ np_sum (np_abs a))%Z.
Proof.
  unfold np_sum, np_abs. simpl. apply sum_list_nonneg.
  rewrite <- list_fmap_compose. apply Forall_fmap, Forall_true. intros row. simpl.
  apply sum_list_nonneg, Forall_fmap, Forall_true. intros v. simpl. lia.
Qed.

Lemma sad_at_nonneg lp R dx y ws s : sad_at lp R dx y ws = Ok s → (0 ≤ s)%Z.
Proof.
  unfold sad_at. intros H. inv_bind H. injection H as <-. apply np_sum_abs_nonneg.
Qed.

(** A window compared with itself scores 0. *)
Lemma np_sub_self a : ∃ d, np_sub a a = Ok d ∧ np_sum (np_abs d) = 0%Z.
Proof.
  unfold np_sub. rewrite !bshape_refl. eexists. split; [reflexivity|].
  unfold np_sum, np_abs. simpl. apply sum_list_zero.
  rewrite <- !list_fmap_compose. apply Forall_fmap, Forall_true. intros i. simpl.
  apply sum_list_zero. rewrite <- list_fmap_compose.
  apply Forall_fmap, Forall_true. intros j. simpl. lia.
Qed.

Lemma sad_at_same lp R dx y ws :
  getslice R y (y + ws) dx (dx + ws) = lp → sad_at lp R dx y ws = Ok 0%Z.
Proof.
  intros Heq. unfold sad_at. rewrite Heq.
  destruct (np_sub_self lp) as (d & -> & Hd). simpl. by rewrite Hd.
Qed.

(** Windows of equal shape can always be compared. *)
Lemma sad_at_ok lp R dx y ws :
  nrows (getslice R y (y + ws) dx (dx + ws)) = nrows lp →
  ncols (getslice R y (y + ws) dx (dx + ws)) = ncols lp →
  ∃ s, sad_at lp R dx y ws = Ok s.
Proof.
  intros Hr Hc. unfold sad_at, np_sub. rewrite Hr, Hc, !bshape_refl. simpl. eauto.
Qed.

(** ** The scanline loop *)

Section Scan.
Context (lp R : grid Z) (x y ws : Z).

Lemma visited_subset ds d : d ∈ visited x ds → d ∈ ds.
Proof.
  induction ds as [|d' ds IH]; simpl; [done|].
  destruct (x - d' <? 0)%Z; [by intros ?%elem_of_nil|].
  intros [->|Hd]%elem_of_cons; [left | right; auto].
Qed.

(** What the loop returns: either the initial disparity, every evaluated
    candidate scoring at least the initial minimum, or the first
    evaluated candidate of least score, that score being below the
    initial minimum. *)
Lemma scan_spec ds m r0 r :
  scan lp R x y ws ds m r0 = Ok r →
  (r = r0 ∧ Forall (λ d, ∃ s, cost lp R x y ws d = Ok s ∧ (m ≤ s)%Z) (visited x ds))
  ∨ (∃ pre post s,
       visited x ds = pre ++ r :: post
       ∧ cost lp R x y ws r = Ok s ∧ (s < m)%Z
       ∧ Forall (λ d, ∃ s', cost lp R x y ws d = Ok s' ∧ (s < s')%Z) pre
       ∧ Forall (λ d, ∃ s', cost lp R x y ws d = Ok s' ∧ (s ≤ s')%Z) post).
Proof.
  revert m r0. induction ds as [|d ds IH]; intros m r0 Hrun; simpl in *.
  - injection Hrun as <-. left. split; [done | constructor].
  - destruct (x - d <? 0)%Z.
    { injection Hrun as <-. left. split; [done | constructor]. }
    inv_bind Hrun. rename a into s.
    destruct (Z.ltb_spec s m) as [Hlt|Hge].
    + destruct (IH _ _ Hrun) as [[-> Hall]|(pre & post & s2 & Hv & Hc & Hs2 & Hpre & Hpost)].
      * right. exists [], (visited x ds), s. simpl. repeat split; try done.
      * right. exists (d :: pre), post, s2. rewrite Hv. repeat split; try done; [lia|].
        constructor; [|done]. exists s. split; [done | lia].
    + destruct (IH _ _ Hrun) as [[-> Hall]|(pre & post & s2 & Hv & Hc & Hs2 & Hpre & Hpost)].
      * left. split; [done|]. constructor; [|done]. exists s. split; [done | lia].
      * right. exists (d :: pre), post, s2. rewrite Hv. repeat split; try done.
        constructor; [|done]. exists s. split; [done | lia].
Qed.

(** The loop finishes when every evaluated candidate can be scored. *)
Lemma scan_total ds m r0 :
  Forall (λ d, ∃ s, cost lp R x y ws d = Ok s) (visited x ds) →
  ∃ r, scan lp R x y ws ds m r0 = Ok r.
Proof.
  revert m r0. induction ds as [|d ds IH]; intros m r0 Hall; simpl in *; [eauto|].
  destruct (x - d <? 0)%Z; [eauto|].
  apply Forall_cons in Hall as [[s Hs] Hall]. unfold cost in Hs. rewrite Hs. simpl.
  destruct (s <? m)%Z; by apply IH.
Qed.

Lemma scan_range ds m r0 r :
  scan lp R x y ws ds m r0 = Ok r → r = r0 ∨ r ∈ ds.
Proof.
  intros [[-> _]|(pre & post & s & Hv & _)]%scan_spec; [by left|right].
  apply visited_subset. rewrite Hv. apply elem_of_app. right. left.
Qed.
End Scan.

(** The disparity returned lies in [[0, max_disparity)]. *)
Lemma match_on_scanline_range lp R x y md ws d :
  (0 < md)%Z → match_on_scanline lp R x y md ws = Ok d → (0 ≤ d < md)%Z.
Proof.
  intros Hmd [->|Hd%elem_of_range]%scan_range; lia.
Qed.

(** ** The candidates of [range(max_disparity)] *)

Lemma visited_bound x ds d : d ∈ visited x ds → (d ≤ x)%Z.
Proof.
  induction ds as [|d' ds IH]; simpl; [by intros ?%elem_of_nil|].
  destruct (Z.ltb_spec (x - d') 0); [by intros ?%elem_of_nil|].
  intros [->|Hd]%elem_of_cons; [lia | auto].
Qed.

Lemma visited_seq x a n :
  visited x (Z.of_nat <$> seq a n)
  = Z.of_nat <$> seq a (Nat.min n (Z.to_nat (x + 1) - a)).
Proof.
  revert a. induction n as [|n IH]; intros a; [done|]. simpl.
  destruct (Z.ltb_spec (x - Z.of_nat a) 0).
  - by replace (Z.to_nat (x + 1) - a) with 0 by lia.
  - rewrite IH. destruct (Z.to_nat (x + 1) - a) as [|k] eqn:Hk; [lia|].
    simpl. by replace (Z.to_nat (x + 1) - S a) with k by lia.
Qed.

(** The loop evaluates exactly the disparities [0 <= d < max_disparity]
    with [d <= x]. *)
Lemma visited_range x md : visited x (range md) = range (Z.min md (x + 1)).
Proof.
  unfold range. rewrite visited_seq. do 2 f_equal. lia.
Qed.

Lemma range_lookup n i d : range n !! i = Some d → d = Z.of_nat i ∧ (d < n)%Z.
Proof.
  unfold range. rewrite list_lookup_fmap.
  destruct (seq 0 (Z.to_nat n) !! i) as [k|] eqn:Hk; [|discriminate].
  intros [= <-]. apply lookup_seq in Hk. lia.
Qed.

Lemma range_split n pre r post :
  range n = pre ++ r :: post →
  (0 ≤ r < n)%Z ∧ Forall (λ d, 0 ≤ d < r)%Z pre ∧ Forall (λ d, r < d < n)%Z post.
Proof.
  intros Heq.
  assert (Hr : r = Z.of_nat (length pre) ∧ (r < n)%Z).
  { apply (range_lookup n (length pre)). rewrite Heq. by apply list_lookup_middle. }
  destruct Hr as [-> Hn]. split; [lia|]. split; apply Forall_lookup_2; intros i d Hd.
  - pose proof (lookup_lt_Some _ _ _ Hd).
    destruct (range_lookup n i d); [|lia].
    rewrite Heq. by apply lookup_app_l_Some.
  - destruct (range_lookup n (length pre + S i) d); [|lia].
    rewrite Heq. rewrite lookup_app_r by lia.
    replace (length pre + S i - length pre) with (S i) by lia. done.
Qed.

(** ** Window shapes inside the padded images *)

Lemma getslice_window {A} (g : grid A) (y x ws : Z) :
  (0 ≤ y)%Z → (0 ≤ x)%Z → (0 ≤ ws)%Z →
  (y + ws ≤ Z.of_nat (nrows g))%Z → (x + ws ≤ Z.of_nat (ncols g))%Z →
  nrows (getslice g y (y + ws) x (x + ws)) = Z.to_nat ws
  ∧ ncols (getslice g y (y + ws) x (x + ws)) = Z.to_nat ws.
Proof.
  intros. simpl. rewrite !slice_bound_nonneg by lia. lia.
Qed.

(** Inside the padded images every candidate window has the shape of the
    left window, so the matcher returns. *)
Lemma match_on_scanline_total (Lp Rp : grid Z) (x y md ws : Z) :
  nrows Rp = nrows Lp → ncols Rp = ncols Lp →
  (0 ≤ y)%Z → (0 ≤ x)%Z → (0 ≤ ws)%Z →
  (y + ws ≤ Z.of_nat (nrows Lp))%Z → (x + ws ≤ Z.of_nat (ncols Lp))%Z →
  ∃ d, match_on_scanline (getslice Lp y (y + ws) x (x + ws)) Rp x y md ws = Ok d.
Proof.
  intros Hr Hc Hy Hx Hws Hyh Hxw. unfold match_on_scanline.
  apply scan_total. apply Forall_forall. intros d Hd.
  pose proof (visited_bound _ _ _ Hd) as Hdx.
  apply visited_subset, elem_of_range in Hd.
  destruct (getslice_window Lp y x ws) as [Hlr Hlc]; [lia..|].
  destruct (getslice_window Rp y (x - d) ws) as [Hrr Hrc]; [lia..|].
  unfold cost. apply sad_at_ok; congruence.
Qed.

(** ** What a returning [add_padding] has done, for any padding *)

Lemma add_padding_Ok {r} (I P : ndarray r) (padding : Z) :
  add_padding I padding = Ok P →
  (0 ≤ Z.of_nat (nrows (data I)) + 2 * padding)%Z
  ∧ (0 ≤ Z.of_nat (ncols (data I)) + 2 * padding)%Z
  ∧ nrows (data P) = Z.to_nat (Z.of_nat (nrows (data I)) + 2 * padding)
  ∧ ncols (data P) = Z.to_nat (Z.of_nat (ncols (data I)) + 2 * padding)
  ∧ wf (data P)
  ∧ elt P = match r with R2 => float32 | R3 _ => elt I end.
Proof.
  intros Hrun.
  assert (Hz : ∀ dt z, np_zeros r dt (Z.of_nat (nrows (data I)) + 2 * padding)
                         (Z.of_nat (ncols (data I)) + 2 * padding) = Ok z →
               (0 ≤ Z.of_nat (nrows (data I)) + 2 * padding)%Z
               ∧ (0 ≤ Z.of_nat (ncols (data I)) + 2 * padding)%Z
               ∧ z = NDArray dt
                       (full (pzero r)
                          (Z.to_nat (Z.of_nat (nrows (data I)) + 2 * padding))
                          (Z.to_nat (Z.of_nat (ncols (data I)) + 2 * padding)))).
  { intros dt z. unfold np_zeros.
    destruct (Z.ltb_spec (Z.of_nat (nrows (data I)) + 2 * padding) 0); [discriminate|].
    destruct (Z.ltb_spec (Z.of_nat (ncols (data I)) + 2 * padding) 0); [discriminate|].
    intros [= <-]. done. }
  destruct r as [|C]; unfold add_padding in Hrun;
    inv_bind Hrun; inv_bind Hrun; injection Hrun as <-;
    apply Hz in Ha as (Hh & Hw & ->); cbn [data elt] in *;
    destruct (setslice_shape _ _ _ _ _ _ _ _ Ha0) as [-> ->];
    pose proof (setslice_wf _ _ _ _ _ _ _ _ Ha0 (wf_full _ _ _));
    simpl; (split; [exact Hh|]); (split; [exact Hw|]); auto.
Qed.

(** ** The pixel loops of [sad] *)

Lemma sad_Ok (L R D : ndarray R2) (ws md : Z) :
  sad L R ws md = Ok D →
  ∃ Lp Rp,
    add_padding L (ws / 2) = Ok Lp ∧ add_padding R (ws / 2) = Ok Rp
    ∧ elt D = elt L
    ∧ for_each (range (Z.of_nat (nrows (data Lp)) - ws + 1))
        (λ y D,
           for_each (range (Z.of_nat (ncols (data Lp)) - ws + 1))
             (sad_pixel (data Lp) (data Rp) ws md y) D)
        (full 0%Z (nrows (data L)) (ncols (data L))) = Ok (data D).
Proof.
  unfold sad. intros Hrun. inv_bind Hrun. inv_bind Hrun. inv_bind Hrun.
  injection Hrun as <-. exists a, a0. by cbn [data elt astype zeros_like] in *.
Qed.

Lemma sad_pixel_Ok Lp Rp ws md y x (D D' : grid Z) :
  sad_pixel Lp Rp ws md y x D = Ok D' →
  ∃ d, match_on_scanline (getslice Lp y (y + ws) x (x + ws)) Rp x y md ws = Ok d
     ∧ setitem D y x d = Ok D'.
Proof. unfold sad_pixel. intros Hrun. inv_bind Hrun. eauto. Qed.

Section Loops.
Context (Lp Rp : grid Z) (ws md : Z).

(** A property of the disparity map kept by every pixel step holds when
    the two loops are done. *)
Lemma loops_inv (P : grid Z → Prop) ys xs :
  (∀ y x D D', P D → sad_pixel Lp Rp ws md y x D = Ok D' → P D') →
  ∀ D D', P D →
    for_each ys (λ y D, for_each xs (sad_pixel Lp Rp ws md y) D) D = Ok D' →
    P D'.
Proof.
  intros Hstep. apply for_each_inv. intros y D D' _ HD.
  apply for_each_inv; [|exact HD]. intros x D1 D2 _. apply Hstep.
Qed.


End Loops.

(** ** When [sad] returns *)


Lemma setitem_inside {A} (g : grid A) (y x : Z) (v : A) :
  (0 ≤ y < Z.of_nat (nrows g))%Z → (0 ≤ x < Z.of_nat (ncols g))%Z →
  ∃ g', setitem g y x v = Ok g' ∧ nrows g' = nrows g ∧ ncols g' = ncols g.
Proof.
  intros Hy Hx. unfold setitem.
  destruct (Z.ltb_spec y 0); [lia|]. destruct (Z.ltb_spec x 0); [lia|].
  destruct (Z.leb_spec 0 y); [|lia]. destruct (Z.leb_spec 0 x); [|lia].
  destruct (Z.ltb_spec y (Z.of_nat (nrows g))); [|lia].
  destruct (Z.ltb_spec x (Z.of_nat (ncols g))); [|lia].
  simpl. eauto.
Qed.



(** ** What the matcher returns *)

Section Matcher.
Context (lp R : grid Z) (x y md ws : Z).

Lemma elem_of_visited_range d :
  d ∈ visited x (range md) ↔ (0 ≤ d < md ∧ d ≤ x)%Z.
Proof. rewrite visited_range, elem_of_range. lia. Qed.

(** Whenever some evaluated candidate scores below the initial minimum
    [max_disparity + 1], the matcher returns the first candidate of least
    score. *)
Lemma match_on_scanline_first_min r d0 s0 :
  match_on_scanline lp R x y md ws = Ok r →
  (0 ≤ d0 < md)%Z → (d0 ≤ x)%Z → cost lp R x y ws d0 = Ok s0 → (s0 ≤ md)%Z →
  ∃ s, cost lp R x y ws r = Ok s
     ∧ (0 ≤ r < md)%Z ∧ (r ≤ x)%Z
     ∧ ∀ d s', (0 ≤ d < md)%Z → (d ≤ x)%Z → cost lp R x y ws d = Ok s' →
         (s ≤ s')%Z ∧ ((d < r)%Z → (s < s')%Z).
Proof.
  unfold match_on_scanline.
  intros [[-> Hall]|(pre & post & s & Hv & Hc & Hs & Hpre & Hpost)]%scan_spec
    Hd0 Hd0x Hc0 Hs0.
  - rewrite Forall_forall in Hall.
    destruct (Hall d0) as (s & Hs & Hle); [by apply elem_of_visited_range|].
    rewrite Hc0 in Hs. injection Hs as <-. lia.
  - assert (Hr : r ∈ visited x (range md)).
    { rewrite Hv. apply elem_of_app. right. left. }
    apply elem_of_visited_range in Hr as [Hr Hrx].
    exists s. split; [done|]. split; [done|]. split; [done|].
    intros d s' Hd Hdx Hcd.
    assert (Hin : d ∈ pre ++ r :: post).
    { rewrite <- Hv. by apply elem_of_visited_range. }
    rewrite visited_range in Hv. apply range_split in Hv as (_ & Hlt & Hgt).
    rewrite Forall_forall in Hpre, Hpost, Hlt, Hgt.
    apply elem_of_app in Hin as [Hin|[->|Hin]%elem_of_cons].
    + destruct (Hpre d Hin) as (s2 & Hs2 & ?). rewrite Hcd in Hs2.
      injection Hs2 as <-. lia.
    + rewrite Hcd in Hc. injection Hc as <-. lia.
    + destruct (Hpost d Hin) as (s2 & Hs2 & ?). rewrite Hcd in Hs2.
      injection Hs2 as <-. specialize (Hgt d Hin). lia.
Qed.

(** The first candidate that matches the window exactly is returned. *)
Lemma match_on_scanline_exact k r :
  (0 ≤ k < md)%Z → (k ≤ x)%Z →
  cost lp R x y ws k = Ok 0%Z →
  (∀ d, (0 ≤ d < k)%Z → cost lp R x y ws d ≠ Ok 0%Z) →
  match_on_scanline lp R x y md ws = Ok r → r = k.
Proof.
  intros Hk Hkx Hck Hfirst Hrun.
  destruct (match_on_scanline_first_min r k 0%Z Hrun Hk Hkx Hck)
    as (s & Hs & Hr & Hrx & Hmin); [lia|].
  pose proof (sad_at_nonneg _ _ _ _ _ _ Hs) as Hs0.
  destruct (Hmin k 0%Z Hk Hkx Hck) as [Hle Hlt].
  assert (s = 0%Z) as -> by lia.
  destruct (Z.lt_trichotomy r k) as [Hrk|[->|Hrk]]; [|done|].
  - exfalso. apply (Hfirst r); [lia | done].
  - lia.
Qed.
End Matcher.

Lemma match_on_scanline_visited lp R x y md ws r :
  match_on_scanline lp R x y md ws = Ok r →
  r = 0%Z ∨ (0 ≤ r < md ∧ r ≤ x)%Z.
Proof.
  unfold match_on_scanline.
  intros [[-> _]|(pre & post & s & Hv & _)]%scan_spec; [by left|right].
  apply elem_of_visited_range. rewrite Hv. apply elem_of_app. right. left.
Qed.

(** Matching a window of an image against that same image gives 0. *)
Lemma match_on_scanline_same (Lp : grid Z) (x y md ws r : Z) :
  match_on_scanline (getslice Lp y (y + ws) x (x + ws)) Lp x y md ws = Ok r →
  r = 0%Z.
Proof.
  intros Hrun. destruct (match_on_scanline_visited _ _ _ _ _ _ _ Hrun) as [|[Hr Hx]]; [done|].
  apply (match_on_scanline_exact _ _ _ _ _ _ 0%Z r) in Hrun; [done|lia|lia| |lia].
  unfold cost. apply sad_at_same. by rewrite Z.sub_0_r.
Qed.


(** ** Where the code leaves its documented behaviour *)

(** When every evaluated candidate scores at least [max_disparity + 1], no
    candidate is ever recorded and the matcher answers 0. *)
Lemma match_on_scanline_all_above lp R x y md ws r :
  (∀ d s, (0 ≤ d < md)%Z → (d ≤ x)%Z → cost lp R x y ws d = Ok s → (md + 1 ≤ s)%Z) →
  match_on_scanline lp R x y md ws = Ok r → r = 0%Z.
Proof.
  unfold match_on_scanline.
  intros Habove [[-> _]|(pre & post & s & Hv & Hc & Hs & _)]%scan_spec; [done|].
  assert (Hr : r ∈ visited x (range md)).
  { rewrite Hv. apply elem_of_app. right. left. }
  apply elem_of_visited_range in Hr as [Hr Hrx].
  specialize (Habove r s Hr Hrx Hc). lia.
Qed.

(** With a padding of 0 the block [padding:-padding] is empty: the source
    is never copied, and it does not even broadcast unless both its extents
    are 0 or 1. *)
Lemma add_padding_zero {r} (I : ndarray r) :
  add_padding I 0 =
    if fits (nrows (data I)) 0 && fits (ncols (data I)) 0
    then Ok (NDArray (match r with R2 => float32 | R3 _ => elt I end)
               (full (pzero r) (nrows (data I)) (ncols (data I))))
    else Raise ValueError.
Proof.
  assert (Hcells : ∀ (A : Type) (f : nat → nat → A → A) (rows : list (list A)),
    imap (λ i row, if (0 <=? i) && (i <? 0) then imap (f i) row else row) rows = rows).
  { intros A f rows. apply list_eq. intros i. rewrite list_lookup_imap.
    by destruct (rows !! i). }
  destruct r as [|C]; unfold add_padding;
    rewrite np_zeros_nonneg by lia; cbn [bind data elt];
    unfold setslice; cbn [nrows ncols cells full Z.opp];
    rewrite !slice_bound_nonneg by lia; cbn [Z.to_nat Nat.min Nat.sub];
    rewrite !Nat.min_0_l; cbn [Nat.sub];
    (destruct (fits _ 0 && fits _ 0); [|done]);
    cbn [bind]; rewrite Hcells; unfold full;
    replace (Z.to_nat (Z.of_nat (nrows (data I)) + 2 * 0)) with (nrows (data I)) by lia;
    replace (Z.to_nat (Z.of_nat (ncols (data I)) + 2 * 0)) with (ncols (data I)) by lia;
    reflexivity.
Qed.


Lemma setitem_outside {A} (g : grid A) (y x : Z) (v : A) :
  (0 ≤ y)%Z → (0 ≤ x)%Z →
  (Z.of_nat (nrows g) ≤ y ∨ Z.of_nat (ncols g) ≤ x)%Z →
  setitem g y x v = Raise IndexError.
Proof.
  intros Hy Hx Hout. unfold setitem.
  destruct (Z.ltb_spec y 0); [lia|]. destruct (Z.ltb_spec x 0); [lia|].
  destruct (Z.leb_spec 0 y); [|lia]. destruct (Z.leb_spec 0 x); [|lia].
  destruct (Z.ltb_spec y (Z.of_nat (nrows g))),
           (Z.ltb_spec x (Z.of_nat (ncols g))); simpl; try reflexivity; lia.
Qed.

(** Loops that run one row and one column past an H x W disparity map
    raise IndexError in their first row. *)
Lemma loops_overrun (Lp Rp : grid Z) (ws md : Z) (H W : nat) :
  nrows Rp = nrows Lp → ncols Rp = ncols Lp → (0 ≤ ws)%Z →
  (ws ≤ Z.of_nat (nrows Lp))%Z → (Z.of_nat W + ws ≤ Z.of_nat (ncols Lp))%Z →
  for_each (range (Z.of_nat H + 1))
    (λ y D, for_each (range (Z.of_nat W + 1)) (sad_pixel Lp Rp ws md y) D)
    (full 0%Z H W) = Raise IndexError.
Proof.
  intros Hr Hc Hws Hh Hw.
  set (P := λ D : grid Z, nrows D = H ∧ ncols D = W).
  assert (Hmatch : ∀ x, (0 ≤ x ≤ Z.of_nat W)%Z →
            ∃ d, match_on_scanline (getslice Lp 0 (0 + ws) x (x + ws))
                   Rp x 0 md ws = Ok d).
  { intros x Hx. apply match_on_scanline_total; lia. }
  assert (Hrow : for_each (range (Z.of_nat W + 1))
                   (sad_pixel Lp Rp ws md 0) (full 0%Z H W)
                 = Raise IndexError).
  { destruct H as [|H'].
    - (* no rows: the very first cell is outside *)
      replace (Z.of_nat W + 1)%Z with (Z.of_nat (S W)) by lia.
      replace (range (Z.of_nat (S W))) with (0%Z :: (Z.of_nat <$> seq 1 W))
        by (by rewrite range_of_nat).
      cbn [for_each]. apply bind_Raise. unfold sad_pixel.
      destruct (Hmatch 0%Z) as [d ->]; [lia|]. cbn [bind].
      apply setitem_outside; simpl; lia.
    - (* at least one row: the cell right of the last column is outside *)
      rewrite range_succ by lia.
      apply (for_each_raises P); [| |done].
      + intros x D Hx%elem_of_range [HDr HDc]. unfold sad_pixel.
        destruct (Hmatch x) as [d ->]; [lia|]. simpl.
        destruct (setitem_inside D 0 x d) as (D' & -> & ? & ?); [lia..|].
        eexists. split; [reflexivity|]. split; congruence.
      + intros D [HDr HDc]. unfold sad_pixel.
        destruct (Hmatch (Z.of_nat W)) as [d ->]; [lia|]. simpl.
        apply setitem_outside; lia. }
  replace (Z.of_nat H + 1)%Z with (Z.of_nat (S H)) by lia.
  replace (range (Z.of_nat (S H))) with (0%Z :: (Z.of_nat <$> seq 1 H))
    by (by rewrite range_of_nat).
  cbn [for_each]. by apply bind_Raise.
Qed.


(** ** A right image that is the left image moved to the left *)


(** * The claims *)

(** C1: the code on a high-contrast window.  Both candidates score at least
    the initial minimum [max_disparity + 1 = 3], so neither is recorded and
    0 is returned although displacement 1 has the smaller SAD. *)
Theorem match_on_scanline_misses_minimum :
  let left_patch := Grid 3 3 [[0;0;0];[0;20;0];[0;0;0]]%Z in
  let image_right := Grid 3 4 [[0;0;0;0];[0;15;0;0];[0;0;0;0]]%Z in
  match_on_scanline left_patch image_right 1 0 2 3 = Ok 0%Z
  ∧ cost left_patch image_right 1 0 3 0 = Ok 35%Z
  ∧ cost left_patch image_right 1 0 3 1 = Ok 5%Z
  ∧ sad (gray uint8 [[0;20]]%Z) (gray uint8 [[15;0]]%Z) 3 2 = Ok (gray uint8 [[0;0]]%Z).
Proof. repeat split; reflexivity. Qed.

(** C2: the code at a padding of 0.  The slice [padding:-padding] is then
    [0:0], an empty block: a 1 x 1 image is not copied and anything larger
    does not broadcast onto the block. *)
Theorem add_padding_zero_padding :
  add_padding (gray uint8 [[5]]%Z) 0 = Ok (gray float32 [[0]]%Z)
  ∧ add_padding (gray uint8 [[1;2];[3;4]]%Z) 0 = Raise ValueError
  ∧ add_padding (@NDArray (R3 2) uint8 (Grid 1 1 [[[7;8]]]%Z)) 0
    = Ok (@NDArray (R3 2) uint8 (Grid 1 1 [[[0;0]]]%Z))
  ∧ add_padding (@NDArray (R3 1) uint8 (Grid 1 2 [[[7];[8]]]%Z)) 0
    = Raise ValueError.
Proof. repeat split; reflexivity. Qed.

(** C3: the code on an even window and on a window of 1.  With an even
    window the loops run one row and one column past the disparity map;
    with a window of 1 the padding is 0 and [add_padding] raises. *)
Theorem sad_even_or_unit_window_raises :
  sad (gray uint8 [[5]]%Z) (gray uint8 [[5]]%Z) 2 3 = Raise IndexError
  ∧ sad (gray uint8 [[1;2];[3;4]]%Z) (gray uint8 [[1;2];[3;4]]%Z) 4 3 = Raise IndexError
  ∧ sad small_left small_right 2 50 = Raise IndexError
  ∧ sad (gray uint8 [[1;2];[3;4]]%Z) (gray uint8 [[1;2];[3;4]]%Z) 1 3 = Raise ValueError.
Proof. repeat split; reflexivity. Qed.




(** C5. When the left and the right image are the same array, every cell of
    the disparity map [sad] returns is 0. *)
Theorem sad_identical_images (I D : ndarray R2) (ws md : Z) :
  sad I I ws md = Ok D → ∀ i j, cell_at 0%Z (data D) i j = 0%Z.
Proof.
  intros (Lp & Rp & HLp & HRp & _ & Hloop)%sad_Ok.
  rewrite HLp in HRp. injection HRp as <-.
  refine (loops_inv _ _ _ _ (λ D', ∀ i j, cell_at 0%Z D' i j = 0%Z)
            _ _ _ _ _ _ Hloop); [|intros i j; apply cell_at_full].
  intros y x D1 D2 HD1 (d & Hd & Hset)%sad_pixel_Ok i j.
  apply match_on_scanline_same in Hd as ->.
  destruct (cell_at_setitem_cases 0%Z _ _ _ _ _ i j Hset) as [->| ->]; [done|apply HD1].
Qed.

Lemma sad_identical_images_witness :
  sad small_left small_left 3 5 = Ok (gray uint8 [[0;0;0];[0;0;0]]%Z)
  ∧ ∀ i j, cell_at 0%Z (data (gray uint8 [[0;0;0];[0;0;0]]%Z)) i j = 0%Z.
Proof.
  split; [reflexivity|].
  apply (sad_identical_images small_left _ 3 5). reflexivity.
Defined.

(** C6. With [max_disparity > 0], every cell of the disparity map [sad]
    returns holds a disparity in [[0, max_disparity)]. *)
Theorem sad_disparity_range (L R D : ndarray R2) (ws md : Z) :
  (0 < md)%Z → sad L R ws md = Ok D →
  ∀ i j, (0 ≤ cell_at 0%Z (data D) i j < md)%Z.
Proof.
  intros Hmd (Lp & Rp & _ & _ & _ & Hloop)%sad_Ok.
  refine (loops_inv _ _ _ _ (λ D', ∀ i j, (0 ≤ cell_at 0%Z D' i j < md)%Z)
            _ _ _ _ _ _ Hloop); [|intros i j; rewrite cell_at_full; lia].
  intros y x D1 D2 HD1 (d & Hd & Hset)%sad_pixel_Ok i j.
  apply match_on_scanline_range in Hd; [|done].
  destruct (cell_at_setitem_cases 0%Z _ _ _ _ _ i j Hset) as [->| ->]; [done|apply HD1].
Qed.

Lemma sad_disparity_range_witness :
  sad texture texture_left2 3 5
  = Ok (gray uint8 [[0;0;2;2;2;2;2;2;2;2;2;2];
                    [0;0;2;2;2;2;2;2;2;2;2;2];
                    [0;0;2;2;2;2;2;2;2;2;2;2]]%Z)
  ∧ ∀ i j,
      (0 ≤ cell_at 0%Z
             (data (gray uint8 [[0;0;2;2;2;2;2;2;2;2;2;2];
                                [0;0;2;2;2;2;2;2;2;2;2;2];
                                [0;0;2;2;2;2;2;2;2;2;2;2]]%Z)) i j < 5)%Z.
Proof.
  split; [reflexivity|].
  apply (sad_disparity_range texture texture_left2 _ 3 5); [lia | reflexivity].
Defined.

(** C7. The disparity map [sad] returns has the row and column extent of
    the unpadded left image, whatever the window size. *)
Theorem sad_shape (L R D : ndarray R2) (ws md : Z) :
  sad L R ws md = Ok D →
  nrows (data D) = nrows (data L) ∧ ncols (data D) = ncols (data L).
Proof.
  intros (Lp & Rp & _ & _ & _ & Hloop)%sad_Ok.
  refine (loops_inv _ _ _ _
            (λ D', nrows D' = nrows (data L) ∧ ncols D' = ncols (data L))
            _ _ _ _ _ _ Hloop); [|split; reflexivity].
  intros y x D1 D2 [HD1r HD1c] (d & _ & Hset)%sad_pixel_Ok.
  destruct (setitem_shape _ _ _ _ _ Hset) as [-> ->]. done.
Qed.

Lemma sad_shape_witness :
  nrows (data (gray uint8 [[0;1;0];[0;1;0]]%Z)) = nrows (data small_left)
  ∧ ncols (data (gray uint8 [[0;1;0];[0;1;0]]%Z)) = ncols (data small_left).
Proof.
  apply (sad_shape small_left small_right _ 3 50). reflexivity.
Defined.

(** C8: the code on a tie.  Displacements 1 and 2 share the least SAD, 10,
    but every score is at least the initial minimum [max_disparity + 1 = 4]
    and 0 is returned, not 1. *)
Theorem match_on_scanline_tie_returns_zero :
  let left_patch := Grid 3 3 [[0;0;0];[0;10;0];[0;0;0]]%Z in
  let image_right := Grid 3 5 [[0;0;0;0;0];[0;5;5;0;0];[0;0;0;0;0]]%Z in
  match_on_scanline left_patch image_right 2 0 3 3 = Ok 0%Z
  ∧ cost left_patch image_right 2 0 3 0 = Ok 15%Z
  ∧ cost left_patch image_right 2 0 3 1 = Ok 10%Z
  ∧ cost left_patch image_right 2 0 3 2 = Ok 10%Z.
Proof. repeat split; reflexivity. Qed.

(** C9, as the code has it.  A padded 2-D image is float32 whatever the
    element type of the source; a padded 3-D image keeps the element type of
    the source, and its cells keep the [C] channel values per cell. *)
Theorem add_padding_dtype_channels {r} (I P : ndarray r) (padding : Z) :
  add_padding I padding = Ok P →
  elt P = match r with R2 => float32 | R3 _ => elt I end
  ∧ (channels_ok I → channels_ok P).
Proof.
  intros Hrun. split; [by apply add_padding_Ok in Hrun as (_ & _ & _ & _ & _ & ?)|].
  destruct r as [|C]; [done|]. unfold channels_ok. intros HI.
  unfold add_padding in Hrun. inv_bind Hrun. inv_bind Hrun. injection Hrun as <-.
  cbn [data]. unfold np_zeros in Ha. destruct (_ || _)%Z; [discriminate|].
  injection Ha as <-. cbn [data] in Ha0.
  unfold setslice in Ha0. destruct (_ && _); [|discriminate]. injection Ha0 as <-.
  cbn [cells full]. apply Forall_lookup_2. intros i row Hrow.
  rewrite list_lookup_imap in Hrow.
  destruct (replicate _ _ !! i) as [row0|] eqn:Hrow0; [|discriminate].
  apply lookup_replicate_1 in Hrow0 as [-> _]. injection Hrow as <-.
  destruct (_ && _); [|apply Forall_replicate, length_replicate].
  apply Forall_lookup_2. intros j px Hpx. rewrite list_lookup_imap in Hpx.
  destruct (replicate _ _ !! j) as [px0|] eqn:Hpx0; [|discriminate].
  apply lookup_replicate_1 in Hpx0 as [-> _]. injection Hpx as <-.
  destruct (_ && _); [|apply length_replicate].
  unfold cell_at. cbn [pixel pzero] in *.
  match goal with
  | |- context [?t ≫= _] => destruct t as [srow|] eqn:Hsrow
  end; [|apply length_replicate].
  simpl.
  match goal with
  | |- context [srow !! ?k] => destruct (srow !! k) as [spx|] eqn:Hspx
  end; [|apply length_replicate].
  simpl. exact (Forall_lookup_1 _ _ _ _ (Forall_lookup_1 _ _ _ _ HI Hsrow) Hspx).
Qed.

Lemma add_padding_dtype_channels_witness :
  elt (@NDArray (R3 2) uint8
         (Grid 3 3 [[[0;0];[0;0];[0;0]]; [[0;0];[7;8];[0;0]]; [[0;0];[0;0];[0;0]]]%Z))
  = uint8
  ∧ (channels_ok (@NDArray (R3 2) uint8 (Grid 1 1 [[[7;8]]]%Z)) →
     channels_ok (@NDArray (R3 2) uint8
        (Grid 3 3 [[[0;0];[0;0];[0;0]]; [[0;0];[7;8];[0;0]]; [[0;0];[0;0];[0;0]]]%Z))).
Proof.
  apply (add_padding_dtype_channels (@NDArray (R3 2) uint8 (Grid 1 1 [[[7;8]]]%Z)) _ 1).
  reflexivity.
Defined.

(** C9 as stated fails: padding a uint8 2-D image gives a float32 array. *)
Lemma add_padding_gray_dtype_changes :
  ∃ P, add_padding (gray uint8 [[1;2];[3;4]]%Z) 1 = Ok P
     ∧ elt P ≠ elt (gray uint8 [[1;2];[3;4]]%Z).
Proof. eexists. split; [reflexivity|]. discriminate. Qed.



(** * Further properties of the code *)

(** ** add_padding *)

(** A negative padding never gets through: either the buffer has a negative
    extent, or the block [padding:-padding] of the smaller buffer cannot
    take the source. *)
Lemma add_padding_neg {r} (I : ndarray r) (padding : Z) :
  (padding < 0)%Z → add_padding I padding = Raise ValueError.
Proof.
  intros Hp.
  assert (Hfit : ∀ n t : nat,
            (0 ≤ Z.of_nat n + 2 * padding)%Z →
            t ≤ Z.to_nat (Z.of_nat n + 2 * padding) → fits n t = false).
  { intros n t Hn Ht. unfold fits.
    destruct (Nat.eqb_spec n t); [lia|]. destruct (Nat.eqb_spec n 1); [lia|done]. }
  assert (Hset : ∀ (A : Type) (fill : A) (src : grid A),
            (0 ≤ Z.of_nat (nrows src) + 2 * padding)%Z →
            setslice fill
              (full fill (Z.to_nat (Z.of_nat (nrows src) + 2 * padding))
                         (Z.to_nat (Z.of_nat (ncols src) + 2 * padding)))
              padding (- padding) padding (- padding) src = Raise ValueError).
  { intros A fill src Hn. unfold setslice. cbn [nrows ncols full].
    rewrite (Hfit (nrows src)); [done|done|].
    pose proof (slice_bound_le
                  (Z.to_nat (Z.of_nat (nrows src) + 2 * padding)) (- padding)).
    lia. }
  destruct r as [|C]; unfold add_padding, np_zeros;
    (destruct (Z.ltb_spec (Z.of_nat (nrows (data I)) + 2 * padding) 0); [done|]);
    (destruct (Z.ltb_spec (Z.of_nat (ncols (data I)) + 2 * padding) 0); [done|]);
    cbn [orb bind data elt]; by rewrite Hset.
Qed.



(** X2. For a positive padding and a well-formed image, the padded image
    has [2 * padding] more rows and columns than the source and every cell
    outside the centre block is zero. *)
Theorem add_padding_border {r} (I : ndarray r) (padding : Z) :
  (0 < padding)%Z → wf (data I) →
  ∃ P, add_padding I padding = Ok P
     ∧ nrows (data P) = nrows (data I) + 2 * Z.to_nat padding
     ∧ ncols (data P) = ncols (data I) + 2 * Z.to_nat padding
     ∧ ∀ i j, (i < Z.to_nat padding ∨ nrows (data I) + Z.to_nat padding ≤ i
               ∨ j < Z.to_nat padding ∨ ncols (data I) + Z.to_nat padding ≤ j) →
              cell_at (pzero r) (data P) i j = pzero r.
Proof.
  intros Hp Hwf.
  destruct (add_padding_pos I padding Hp Hwf)
    as (P & HP & _ & Hr & Hc & _ & Hcell).
  exists P. repeat (split; [done|]). intros i j Hout.
  rewrite Hcell. unfold in_center.
  destruct (Nat.leb_spec (Z.to_nat padding) i),
    (Nat.ltb_spec i (nrows (data I) + Z.to_nat padding)),
    (Nat.leb_spec (Z.to_nat padding) j),
    (Nat.ltb_spec j (ncols (data I) + Z.to_nat padding)); simpl; try reflexivity.
  lia.
Qed.

Lemma add_padding_border_witness :
  ∃ P, add_padding small_left 1 = Ok P
     ∧ nrows (data P) = nrows (data small_left) + 2 * Z.to_nat 1
     ∧ ncols (data P) = ncols (data small_left) + 2 * Z.to_nat 1
     ∧ ∀ i j, (i < Z.to_nat 1 ∨ nrows (data small_left) + Z.to_nat 1 ≤ i
               ∨ j < Z.to_nat 1 ∨ ncols (data small_left) + Z.to_nat 1 ≤ j) →
              cell_at (pzero R2) (data P) i j = pzero R2.
Proof.
  apply (add_padding_border small_left 1); [lia|].
  split; [reflexivity | repeat constructor].
Defined.

(** X3. With a negative padding [add_padding] raises ValueError, whatever
    the image. *)
Theorem add_padding_negative_raises {r} (I : ndarray r) (padding : Z) :
  (padding < 0)%Z → add_padding I padding = Raise ValueError.
Proof. intros Hp. by apply add_padding_neg. Qed.

Lemma add_padding_negative_raises_witness :
  add_padding texture (- 1) = Raise ValueError.
Proof. apply (add_padding_negative_raises texture (- 1)). lia. Defined.

(** X4. With a padding of 0, [add_padding] raises ValueError on every image
    that has more than one row or more than one column. *)
Theorem add_padding_zero_raises {r} (I : ndarray r) :
  1 < nrows (data I) ∨ 1 < ncols (data I) →
  add_padding I 0 = Raise ValueError.
Proof.
  intros Hbig. rewrite add_padding_zero. unfold fits.
  destruct (Nat.eqb_spec (nrows (data I)) 0), (Nat.eqb_spec (nrows (data I)) 1),
    (Nat.eqb_spec (ncols (data I)) 0), (Nat.eqb_spec (ncols (data I)) 1);
    simpl; try reflexivity; lia.
Qed.

Lemma add_padding_zero_raises_witness :
  add_padding small_left 0 = Raise ValueError.
Proof. apply (add_padding_zero_raises small_left). left. simpl. lia. Defined.

(** ** match_on_scanline *)

(** The matcher returns as soon as every evaluated candidate can be
    scored. *)
Lemma match_on_scanline_scored lp R x y md ws :
  (∀ d, (0 ≤ d < md)%Z → (d ≤ x)%Z → ∃ s, cost lp R x y ws d = Ok s) →
  ∃ r, match_on_scanline lp R x y md ws = Ok r.
Proof.
  intros Hscored. unfold match_on_scanline. apply scan_total.
  apply Forall_forall. intros d [Hd Hdx]%elem_of_visited_range. by apply Hscored.
Qed.

(** X5. When every candidate [0 <= d < max_disparity], [d <= x] can be
    scored and one of them has a SAD of at most [max_disparity], the matcher
    returns a candidate whose SAD is least, and strictly below the SAD of
    every smaller candidate. *)
Theorem match_on_scanline_first_minimiser lp R x y md ws d0 s0 :
  (∀ d, (0 ≤ d < md)%Z → (d ≤ x)%Z → ∃ s, cost lp R x y ws d = Ok s) →
  (0 ≤ d0 < md)%Z → (d0 ≤ x)%Z → cost lp R x y ws d0 = Ok s0 → (s0 ≤ md)%Z →
  ∃ r s, match_on_scanline lp R x y md ws = Ok r
       ∧ (0 ≤ r < md)%Z ∧ (r ≤ x)%Z ∧ cost lp R x y ws r = Ok s
       ∧ ∀ d s', (0 ≤ d < md)%Z → (d ≤ x)%Z → cost lp R x y ws d = Ok s' →
           (s ≤ s')%Z ∧ ((d < r)%Z → (s < s')%Z).
Proof.
  intros Hscored Hd0 Hd0x Hc0 Hs0.
  destruct (match_on_scanline_scored lp R x y md ws Hscored) as [r Hr].
  destruct (match_on_scanline_first_min lp R x y md ws r d0 s0 Hr Hd0 Hd0x Hc0 Hs0)
    as (s & Hs & Hrange & Hrx & Hmin).
  exists r, s. repeat (split; [done|]). exact Hmin.
Qed.

Lemma match_on_scanline_first_minimiser_witness :
  ∃ r s,
    match_on_scanline (Grid 3 3 [[0;0;0];[0;2;0];[0;0;0]]%Z)
      (Grid 3 5 [[0;0;0;0;0];[0;2;2;1;0];[0;0;0;0;0]]%Z) 2 0 3 3 = Ok r
    ∧ (0 ≤ r < 3)%Z ∧ (r ≤ 2)%Z
    ∧ cost (Grid 3 3 [[0;0;0];[0;2;0];[0;0;0]]%Z)
        (Grid 3 5 [[0;0;0;0;0];[0;2;2;1;0];[0;0;0;0;0]]%Z) 2 0 3 r = Ok s
    ∧ ∀ d s', (0 ≤ d < 3)%Z → (d ≤ 2)%Z →
        cost (Grid 3 3 [[0;0;0];[0;2;0];[0;0;0]]%Z)
          (Grid 3 5 [[0;0;0;0;0];[0;2;2;1;0];[0;0;0;0;0]]%Z) 2 0 3 d = Ok s' →
        (s ≤ s')%Z ∧ ((d < r)%Z → (s < s')%Z).
Proof.
  apply (match_on_scanline_first_minimiser _ _ 2 0 3 3 0 3)%Z.
  - intros d Hd _.
    assert (d = 0 ∨ d = 1 ∨ d = 2)%Z as [-> | [-> | ->]] by lia;
      eexists; vm_compute; reflexivity.
  - lia.
  - lia.
  - reflexivity.
  - lia.
Defined.

(** X6. When every candidate can be scored and every SAD is above
    [max_disparity], no candidate is recorded and the matcher returns 0,
    whichever candidate is the best. *)
Theorem match_on_scanline_above_sentinel lp R x y md ws :
  (∀ d, (0 ≤ d < md)%Z → (d ≤ x)%Z →
        ∃ s, cost lp R x y ws d = Ok s ∧ (md + 1 ≤ s)%Z) →
  match_on_scanline lp R x y md ws = Ok 0%Z.
Proof.
  intros Habove.
  destruct (match_on_scanline_scored lp R x y md ws) as [r Hr].
  { intros d Hd Hdx. destruct (Habove d Hd Hdx) as (s & Hs & _). eauto. }
  rewrite Hr. f_equal.
  apply (match_on_scanline_all_above lp R x y md ws r); [|done].
  intros d s Hd Hdx Hs. destruct (Habove d Hd Hdx) as (s' & Hs' & Hle).
  rewrite Hs in Hs'. injection Hs' as <-. done.
Qed.

Lemma match_on_scanline_above_sentinel_witness :
  match_on_scanline (Grid 3 3 [[0;0;0];[0;20;0];[0;0;0]]%Z)
    (Grid 3 4 [[0;0;0;0];[0;15;0;0];[0;0;0;0]]%Z) 1 0 2 3 = Ok 0%Z.
Proof.
  apply match_on_scanline_above_sentinel. intros d Hd _.
  assert (d = 0 ∨ d = 1)%Z as [-> | ->] by lia;
    eexists; (split; [vm_compute; reflexivity | lia]).
Defined.

(** X7. With [max_disparity <= 0], or at a negative [x], the loop evaluates
    no candidate: the matcher returns 0 and cannot raise, whatever the
    shapes of the window and of the right image. *)
Theorem match_on_scanline_no_candidate lp R x y md ws :
  (md ≤ 0 ∨ x < 0)%Z → match_on_scanline lp R x y md ws = Ok 0%Z.
Proof.
  intros Hnone. unfold match_on_scanline.
  destruct (range md) as [|d ds] eqn:Hrange; [done|].
  assert (Hd : d ∈ range md) by (rewrite Hrange; left).
  apply elem_of_range in Hd. simpl.
  destruct (Z.ltb_spec (x - d) 0); [done|lia].
Qed.

Lemma match_on_scanline_no_candidate_witness :
  match_on_scanline (Grid 3 3 [[0;0;0];[0;20;0];[0;0;0]]%Z)
    (Grid 1 1 [[7]]%Z) (- 1) 0 5 3 = Ok 0%Z.
Proof. apply match_on_scanline_no_candidate. right. lia. Defined.

(** ** sad *)




(** A property of the map kept by every pixel step at a visited position
    holds when the two loops are done. *)
Lemma loops_inv_at (Lp Rp : grid Z) (ws md : Z) (P : grid Z → Prop) ys xs :
  (∀ y x D D', y ∈ ys → x ∈ xs → P D →
               sad_pixel Lp Rp ws md y x D = Ok D' → P D') →
  ∀ D D', P D →
    for_each ys (λ y D, for_each xs (sad_pixel Lp Rp ws md y) D) D = Ok D' →
    P D'.
Proof.
  intros Hstep. apply for_each_inv. intros y D D' Hy HD.
  apply for_each_inv; [|exact HD]. intros x D1 D2 Hx. by apply Hstep.
Qed.




(** X10. With a window of 1 the padding is 0, and [sad] raises ValueError as
    soon as one of the two images has more than one row or column. *)
Theorem sad_unit_window_raises (L R : ndarray R2) (md : Z) :
  1 < nrows (data L) ∨ 1 < ncols (data L)
  ∨ 1 < nrows (data R) ∨ 1 < ncols (data R) →
  sad L R 1 md = Raise ValueError.
Proof.
  intros Hbig. unfold sad. change (1 / 2)%Z with 0%Z.
  rewrite (add_padding_zero L), (add_padding_zero R). unfold fits.
  destruct (Nat.eqb_spec (nrows (data L)) 0), (Nat.eqb_spec (nrows (data L)) 1),
    (Nat.eqb_spec (ncols (data L)) 0), (Nat.eqb_spec (ncols (data L)) 1);
    cbn [orb andb bind]; try reflexivity;
    destruct (Nat.eqb_spec (nrows (data R)) 0), (Nat.eqb_spec (nrows (data R)) 1),
      (Nat.eqb_spec (ncols (data R)) 0), (Nat.eqb_spec (ncols (data R)) 1);
    cbn [orb andb bind]; try reflexivity; lia.
Qed.

Lemma sad_unit_window_raises_witness :
  sad texture texture 1 50 = Raise ValueError.
Proof. apply (sad_unit_window_raises texture texture 50). left. simpl. lia. Defined.

(** X11. With a negative window size the padding is negative, and [sad]
    raises ValueError whatever the images. *)
Theorem sad_negative_window_raises (L R : ndarray R2) (ws md : Z) :
  (ws < 0)%Z → sad L R ws md = Raise ValueError.
Proof.
  intros Hws. unfold sad.
  rewrite (add_padding_neg L (ws / 2)); [done|].
  apply Z.div_lt_upper_bound; lia.
Qed.

Lemma sad_negative_window_raises_witness :
  sad texture texture (- 3) 50 = Raise ValueError.
Proof. apply (sad_negative_window_raises texture texture (- 3) 50). lia. Defined.

(** X12. With a window size of 0, [sad] never returns on two images of one
    shape: it raises ValueError when the image has more than one row or
    column, and IndexError otherwise. *)
Theorem sad_zero_window_raises (L R : ndarray R2) (md : Z) :
  nrows (data R) = nrows (data L) → ncols (data R) = ncols (data L) →
  sad L R 0 md =
    Raise (if fits (nrows (data L)) 0 && fits (ncols (data L)) 0
           then IndexError else ValueError).
Proof.
  intros Hr Hc. unfold sad. change (0 / 2)%Z with 0%Z.
  rewrite (add_padding_zero L), (add_padding_zero R), Hr, Hc.
  destruct (fits (nrows (data L)) 0 && fits (ncols (data L)) 0); [|done].
  cbn [bind astype data elt zeros_like]. apply bind_Raise.
  cbn [full nrows ncols].
  replace (Z.of_nat (nrows (data L)) - 0 + 1)%Z
    with (Z.of_nat (nrows (data L)) + 1)%Z by lia.
  replace (Z.of_nat (ncols (data L)) - 0 + 1)%Z
    with (Z.of_nat (ncols (data L)) + 1)%Z by lia.
  apply loops_overrun; cbn [full nrows ncols]; lia.
Qed.

Lemma sad_zero_window_raises_witness :
  sad texture texture_left2 0 50 = Raise ValueError
  ∧ sad (gray uint8 [[5]]%Z) (gray uint8 [[6]]%Z) 0 50 = Raise IndexError.
Proof.
  split.
  - exact (sad_zero_window_raises texture texture_left2 50 eq_refl eq_refl).
  - exact (sad_zero_window_raises (gray uint8 [[5]]%Z) (gray uint8 [[6]]%Z) 50
             eq_refl eq_refl).
Defined.

(** X13. Whenever [sad] returns, the disparity in column [j] of the map is
    between 0 and [j]: the search never leaves the image on the left, so the
    first column of every disparity map is 0. *)
Theorem sad_disparity_at_most_column (L R D : ndarray R2) (ws md : Z) :
  sad L R ws md = Ok D →
  ∀ i j, (0 ≤ cell_at 0%Z (data D) i j ≤ Z.of_nat j)%Z.
Proof.
  intros (Lp & Rp & _ & _ & _ & Hloop)%sad_Ok.
  refine (loops_inv_at _ _ _ _
            (λ D', ∀ i j, (0 ≤ cell_at 0%Z D' i j ≤ Z.of_nat j)%Z)
            _ _ _ _ _ _ Hloop); [|intros i j; rewrite cell_at_full; lia].
  intros y x D1 D2 Hy%elem_of_range Hx%elem_of_range HD1
    (d & Hd & Hset)%sad_pixel_Ok i j.
  apply match_on_scanline_visited in Hd.
  destruct (decide (i = Z.to_nat y ∧ j = Z.to_nat x)) as [[-> ->]|Hne].
  - destruct (cell_at_setitem_cases 0%Z _ _ _ _ _ (Z.to_nat y) (Z.to_nat x) Hset)
      as [->| ->]; [lia | apply HD1].
  - replace y with (Z.of_nat (Z.to_nat y)) in Hset by lia.
    replace x with (Z.of_nat (Z.to_nat x)) in Hset by lia.
    rewrite (cell_at_setitem_ne 0%Z _ _ _ _ _ i j Hset); [apply HD1|].
    destruct (decide (i = Z.to_nat y)) as [->|Hi]; [right|by left].
    intros ->. by apply Hne.
Qed.

Lemma sad_disparity_at_most_column_witness :
  (0 ≤ cell_at 0%Z
         (data (gray uint8 [[0;1;2;2;2;2;2;2;2;2;2;2];
                            [0;1;2;2;2;2;2;2;2;2;2;2];
                            [0;1;2;2;2;2;2;2;2;2;2;2]]%Z)) 1 1
   ≤ Z.of_nat 1)%Z.
Proof.
  apply (sad_disparity_at_most_column texture texture_left2 _ 3 50).
  vm_compute. reflexivity.
Defined.

(** X14. With [max_disparity <= 1] only displacement 0 is ever tried:
    whenever [sad] returns, the disparity map is all zero. *)
Theorem sad_single_candidate_zero (L R D : ndarray R2) (ws md : Z) :
  (md ≤ 1)%Z → sad L R ws md = Ok D →
  ∀ i j, cell_at 0%Z (data D) i j = 0%Z.
Proof.
  intros Hmd (Lp & Rp & _ & _ & _ & Hloop)%sad_Ok.
  refine (loops_inv _ _ _ _ (λ D', ∀ i j, cell_at 0%Z D' i j = 0%Z)
            _ _ _ _ _ _ Hloop); [|intros i j; apply cell_at_full].
  intros y x D1 D2 HD1 (d & Hd & Hset)%sad_pixel_Ok i j.
  apply match_on_scanline_visited in Hd.
  destruct (cell_at_setitem_cases 0%Z _ _ _ _ _ i j Hset) as [->| ->];
    [lia | apply HD1].
Qed.

Lemma sad_single_candidate_zero_witness :
  cell_at 0%Z
    (data (gray uint8 [[0;0;0;0;0;0;0;0;0;0;0;0];
                       [0;0;0;0;0;0;0;0;0;0;0;0];
                       [0;0;0;0;0;0;0;0;0;0;0;0]]%Z)) 1 6 = 0%Z.
Proof.
  apply (sad_single_candidate_zero texture texture_left2 _ 3 1); [lia|].
  vm_compute. reflexivity.
Defined.

(** *** A right image narrower than the left one *)






(** ** The output names of main *)

Lemma read_digits_zeros k s :
  read_digits (String.string_of_list_ascii (replicate k "0"%char) +:+ s)
  = read_digits s.
Proof.
  induction k as [|k IH]; [done|]. revert IH. unfold read_digits. simpl.
  destruct (NilEmpty.uint_of_string _) as [d|]; simpl.
  - by intros <-.
  - by intros <-.
Qed.

Lemma read_digits_of z : read_digits (digits_of z) = Some (Z.abs_N z).
Proof.
  unfold digits_of, read_digits. rewrite <- (DecimalN.Unsigned.of_to (Z.abs_N z)) at 2.
  destruct (N.to_uint (Z.abs_N z)); [done|..];
    unfold NilZero.string_of_uint; by rewrite NilEmpty.usu.
Qed.

Lemma read_int_minus s :
  read_int (String "-" s) = (λ n, (- Z.of_N n)%Z) <$> read_digits s.
Proof.
  unfold read_int.
  assert (read_digits (String "-" s) = None) as ->.
  { unfold read_digits. simpl. by destruct (NilEmpty.uint_of_string s). }
  reflexivity.
Qed.

(** A formatted integer reads back as itself. *)
Lemma read_int_fmt_0d w z : read_int (fmt_0d w z) = Some z.
Proof.
  unfold fmt_0d, zero_pad. destruct (Z.ltb_spec z 0).
  - change ("-" +:+ ?s) with (String "-" s).
    rewrite read_int_minus, read_digits_zeros, read_digits_of. simpl.
    f_equal. lia.
  - unfold read_int. rewrite read_digits_zeros, read_digits_of. f_equal. lia.
Qed.

Lemma fmt_0d_inj w z z' : fmt_0d w z = fmt_0d w z' → z = z'.
Proof.
  intros Heq. pose proof (read_int_fmt_0d w z) as Hz.
  rewrite Heq, read_int_fmt_0d in Hz. by injection Hz.
Qed.

Lemma fmt_d_0d z : fmt_d z = fmt_0d 0 z.
Proof. unfold fmt_d, fmt_0d, zero_pad. by destruct (z <? 0)%Z. Qed.

Lemma plain_app s t : plain s → plain t → plain (s +:+ t).
Proof. induction s as [|a s IH]; simpl; [done|]. intros (? & ? & ?) ?. auto. Qed.

Lemma plain_fmt_0d w z : plain (fmt_0d w z).
Proof.
  assert (Hzeros : ∀ k, plain (String.string_of_list_ascii (replicate k "0"%char))).
  { induction k as [|k IH]; simpl; [done|]. by repeat split. }
  assert (Hdigits : plain (digits_of z)).
  { unfold digits_of.
    assert (Hd : ∀ d, plain (NilEmpty.string_of_uint d)).
    { induction d; simpl; by repeat split. }
    destruct (N.to_uint (Z.abs_N z)) as [|d|d|d|d|d|d|d|d|d|d];
      [simpl; by repeat split|..]; exact (Hd _). }
  unfold fmt_0d, zero_pad. destruct (z <? 0)%Z.
  - change ("-" +:+ ?s) with (String "-" s). cbn [plain].
    split; [done|]. split; [done|]. by apply plain_app.
  - by apply plain_app.
Qed.

(** Two strings made of a plain part, a separator and a rest agree only
    when the plain parts and the rests agree. *)
Lemma plain_split (c : ascii) A A' r r' :
  c = "_"%char ∨ c = "."%char → plain A → plain A' →
  A +:+ String c r = A' +:+ String c r' → A = A' ∧ r = r'.
Proof.
  intros Hc. revert A'. induction A as [|a A IH]; intros [|a' A'] HA HA' Heq;
    simpl in *.
  - by injection Heq.
  - injection Heq as -> _. destruct HA' as (? & ? & _). by destruct Hc.
  - injection Heq as -> _. destruct HA as (? & ? & _). by destruct Hc.
  - injection Heq as -> Heq. destruct HA as (_ & _ & HA), HA' as (_ & _ & HA').
    destruct (IH A' HA HA' Heq) as [-> ->]. done.
Qed.

Lemma file_name_eq i ws i' ws' :
  file_name i ws = file_name i' ws' → i = i' ∧ ws = ws'.
Proof.
  unfold file_name. intros Heq.
  change ("_w" +:+ ?s) with (String "_" (String "w" s)) in Heq.
  apply plain_split in Heq as [Hi Heq]; [|by left|apply plain_fmt_0d..].
  injection Heq as Heq.
  change ".png" with (String "." "png") in Heq.
  apply plain_split in Heq as [Hws _]; [|by right|apply plain_fmt_0d..].
  split; by eapply fmt_0d_inj.
Qed.

(** X16. The file name tells the image index and the window size apart:
    names built from different indices, or from different window sizes,
    differ, so no image of a run overwrites the output of another. *)
Theorem file_name_distinct i ws i' ws' :
  i ≠ i' ∨ ws ≠ ws' → file_name i ws ≠ file_name i' ws'.
Proof.
  intros Hne Heq. apply file_name_eq in Heq as [Hi Hws].
  destruct Hne as [Hne|Hne]; by apply Hne.
Qed.

Lemma file_name_distinct_witness :
  file_name 7 3 ≠ file_name 8 3 ∧ file_name 7 3 ≠ file_name 7 (- 3).
Proof.
  split.
  - apply (file_name_distinct 7 3 8 3). left. lia.
  - apply (file_name_distinct 7 3 7 (- 3)). right. lia.
Defined.

(** X17. The directory name tells the window size apart: runs with
    different window sizes write into different directories. *)
Theorem out_dir_name_distinct ws ws' :
  ws ≠ ws' → out_dir_name ws ≠ out_dir_name ws'.
Proof.
  unfold out_dir_name. intros Hne Heq. apply Hne.
  cbn [String.append] in Heq. injection Heq as Heq.
  change ("" +:+ ?s) with s in Heq.
  rewrite (fmt_d_0d ws), (fmt_d_0d ws') in Heq. exact (fmt_0d_inj _ _ _ Heq).
Qed.

Lemma out_dir_name_distinct_witness : out_dir_name 3 ≠ out_dir_name 11.
Proof. apply (out_dir_name_distinct 3 11). lia. Defined.
